(** * mtb: components, ports, actions and the differential-testing proxy

    A shallow embedding of [mtb/action.py], [mtb/system.py] and
    [mtb/proxy.py].  Python objects with identity live in stores keyed by
    their address; operations are written in a state-and-exception monad in
    which the state survives a raise, as it does in Python. *)

From stdpp Require Import gmap strings list sorting.

Set Default Proof Using "Type".

(** ** Exceptions *)

(** Modelled from the spec: [mtb/base.py] is not among the sources; it
    exports the exception class [ModelingError], the configuration and
    wiring defect of the error taxonomy.  The other constructors are the
    built-in exceptions that the embedded code can meet; [Raised] stands for
    an exception raised by user code (an assertion in a receiver or in a
    wrapped implementation). *)
Inductive exn :=
| ModelingError
| ValueError
| TypeError
| IndexError
| AttributeError
| NotImplementedError
| Raised (tag : string).

#[global] Instance exn_eq_dec : EqDecision exn.
Proof. solve_decision. Defined.

(** ** The state-and-exception monad *)

Definition M (S A : Type) : Type := S → (exn + A) * S.

Definition ret {S A} (a : A) : M S A := λ s, (inr a, s).

Definition raise {S A} (e : exn) : M S A := λ s, (inl e, s).

Definition bind {S A B} (m : M S A) (k : A → M S B) : M S B :=
  λ s, match m s with
       | (inl e, s') => (inl e, s')
       | (inr a, s') => k a s'
       end.

Definition gets {S A} (f : S → A) : M S A := λ s, (inr (f s), s).

Definition modify {S} (f : S → S) : M S unit := λ s, (inr tt, f s).

Notation "x <- m ;; k" := (bind m (λ x, k))
  (at level 100, m at next level, right associativity).
Notation "m ;;; k" := (bind m (λ _, k))
  (at level 100, right associativity).

(** Python's [for x in l: body(x)]: the first raise ends the loop. *)
Fixpoint for_each {S A} (l : list A) (body : A → M S unit) : M S unit :=
  match l with
  | [] => ret tt
  | x :: l' => body x ;;; for_each l' body
  end.

(** ** Python values and the object heap *)

Definition loc := nat.

(** Immutable values are carried as they are; a mutable object (a list, a
    dataclass instance) is a reference into the heap. *)
Inductive value :=
| VNone
| VBool (b : bool)
| VInt (n : Z)
| VStr (s : string)
| VEnum (enum member : string)
| VRef (l : loc).

#[global] Instance value_eq_dec : EqDecision value.
Proof. solve_decision. Defined.

Inductive object :=
| OList (items : list value)
| OInstance (cls : string) (attrs : list (string * value)).

#[global] Instance object_eq_dec : EqDecision object.
Proof. solve_decision. Defined.

Abbreviation heap := (gmap loc object).

(** [x is None] *)
Definition is_none (v : value) : bool :=
  match v with VNone => true | _ => false end.

(** Allocation of a new object, at an address not in use. *)
Definition new_object (o : object) : M heap loc :=
  λ h, let l := fresh (dom h) in (inr l, <[l := o]> h).

Definition alloc (o : object) : M heap value :=
  λ h, let l := fresh (dom h) in (inr (VRef l), <[l := o]> h).

(** [copy.copy]: a shallow copy.  Immutable values are returned as they are;
    a mutable object is duplicated at a new address, its items or attribute
    values shared with the original. *)
Definition copy (v : value) : M heap value :=
  λ h, match v with
       | VRef l => match h !! l with
                   | Some o => alloc o h
                   | None => (inr v, h)
                   end
       | _ => (inr v, h)
       end.

(** Lookup in a mapping that keeps its insertion order. *)
Fixpoint get_assoc {A} (k : string) (l : list (string * A)) : option A :=
  match l with
  | [] => None
  | (a, x) :: rest => if decide (a = k) then Some x else get_assoc k rest
  end.

(** Attribute read [obj.attr] on a heap instance, [None] when absent. *)
Definition getattr_value (h : heap) (self : loc) (attr : string) : value :=
  match h !! self with
  | Some (OInstance _ attrs) => default VNone (get_assoc attr attrs)
  | _ => VNone
  end.

(** Attribute write [obj.attr = v] on a heap instance. *)
Fixpoint set_assoc (attr : string) (v : value) (attrs : list (string * value))
  : list (string * value) :=
  match attrs with
  | [] => [(attr, v)]
  | (a, x) :: rest =>
      if decide (a = attr) then (a, v) :: rest
      else (a, x) :: set_assoc attr v rest
  end.

Definition setattr_value (self : loc) (attr : string) (v : value) (h : heap)
  : heap :=
  match h !! self with
  | Some (OInstance c attrs) => <[self := OInstance c (set_assoc attr v attrs)]> h
  | _ => h
  end.

(** ** action.py *)

(** The types that occur as parameter annotations.  [TClass] is any other
    class, with the flag telling whether its constructor accepts a call
    without arguments; [TNotClass] is an annotation that is not a class at
    all (a parametrised alias such as [list[int]]), on which [issubclass]
    raises [TypeError]. *)
#[warnings="-register-all"]
Inductive pytype :=
| TInt
| TBool
| TStr
| TList
| TEnum (name : string) (members : list string)
| TDataclass (name : string) (fields : list (string * pytype))
| TClass (name : string) (nullary : bool)
| TNotClass (repr : string).

(** [get_type_default(type)].  The dataclass branch evaluates the dict
    comprehension over [fields(type)] in field order and then calls the
    generated constructor with the collected keywords. *)
Fixpoint get_type_default (type : pytype) : M heap value :=
  match type with
  | TNotClass _ => raise TypeError
  | TEnum name members =>
      match members with
      | [] => raise IndexError
      | first :: _ => ret (VEnum name first)
      end
  | TDataclass name fields =>
      args <- (fix defaults (fs : list (string * pytype))
                 : M heap (list (string * value)) :=
                 match fs with
                 | [] => ret []
                 | f :: fs' =>
                     v <- get_type_default f.2 ;;
                     rest <- defaults fs' ;;
                     ret ((f.1, v) :: rest)
                 end) fields ;;
      alloc (OInstance name args)
  | TInt => ret (VInt 0)
  | TBool => ret (VBool false)
  | TStr => ret (VStr "")
  | TList => alloc (OList [])
  | TClass name nullary =>
      if nullary then alloc (OInstance name []) else raise TypeError
  end.


(** A default-value provider: a function of the owning component, reading
    the current heap, e.g. [lambda self: self.d]. *)
Definition provider := heap → loc → value.

Record ActionParam := {
  param_name : string;
  param_type : pytype;
  get_default : option provider;
}.

(** [ActionParam.get_default_value(owner)] *)
Definition get_default_value (p : ActionParam) (owner : loc) : M heap value :=
  λ h,
    let default_value :=
      match get_default p with
      | Some g => g h owner
      | None => VNone
      end in
    if is_none default_value then get_type_default (param_type p) h
    else copy default_value h.

(** [getfullargspec(f)], restricted to the two fields the code reads: the
    positional parameter names and the annotations. *)
Record FullArgSpec := {
  args : list string;
  annotations : gmap string pytype;
}.

(** A function object: its address (functions carry the mutable attribute
    [__mtb_action]), its [__name__], its signature and its body.  A body is
    user code: it is called with [self] and the arguments, works on the
    object heap and either returns [None] or raises.  Bodies do not reach
    the port stores, so a receiver that itself sends or connects is outside
    this model. *)
Record pyfunc := {
  f_addr : nat;
  f_name : string;
  f_argspec : FullArgSpec;
  f_body : loc → list value → M heap unit;
}.

(** [ActionInfo], the value of a function's [__mtb_action] attribute. *)
Record ActionInfo := {
  default_getters : gmap string provider;
  connected : bool;
}.

Definition set_connected (b : bool) (i : ActionInfo) : ActionInfo :=
  {| default_getters := default_getters i; connected := b |}.

Record Action := {
  owner : loc;
  action_func : pyfunc;
  params : list ActionParam;
}.

(** The loop of [Action.__post_init__] over [argspec.args]. *)
Fixpoint action_params (argspec : FullArgSpec) (info : ActionInfo)
    (names : list string) : exn + list ActionParam :=
  match names with
  | [] => inr []
  | arg :: rest =>
      if decide (arg = "self") then action_params argspec info rest
      else match annotations argspec !! arg with
           | None => inl ModelingError
           | Some ty =>
               match action_params argspec info rest with
               | inl e => inl e
               | inr ps =>
                   inr ({| param_name := arg; param_type := ty;
                           get_default := default_getters info !! arg |} :: ps)
               end
           end
  end.

(** ** system.py *)

Record PortInDescriptor := {
  in_addr : nat;
  in_name : string;
}.

Record PortIn := {
  in_descriptor : PortInDescriptor;
  in_owner : loc;
}.

Record PortOutDescriptor := {
  out_addr : nat;
  out_name : string;
  cached : bool;
}.

Record PortOut := {
  out_descriptor : PortOutDescriptor;
  out_owner : loc;
}.

#[global] Instance PortInDescriptor_eq_dec : EqDecision PortInDescriptor.
Proof. solve_decision. Defined.
#[global] Instance PortIn_eq_dec : EqDecision PortIn.
Proof. solve_decision. Defined.
#[global] Instance PortOutDescriptor_eq_dec : EqDecision PortOutDescriptor.
Proof. solve_decision. Defined.
#[global] Instance PortOut_eq_dec : EqDecision PortOut.
Proof. solve_decision. Defined.

(** The mutable attributes of a [PortOut] object. *)
Record PortOutState := {
  receivers : list PortIn;
  latest_value : value;
}.

(** [PortOut.__init__]: no receivers, [latest_value = None]. *)
Definition new_port_out : PortOutState :=
  {| receivers := []; latest_value := VNone |}.

Record Component := {
  _actions : list Action;
  _output_ports : list PortOut;
  _input_ports : list PortIn;
  _variables : list string;
}.

(** What user code was entered, in order: a receiver called by a [PortIn]
    with a value, or a component's [init] hook. *)
Inductive event :=
| EvReceive (port : PortIn) (func : nat) (v : value)
| EvInit (self : loc).

#[global] Instance event_eq_dec : EqDecision event.
Proof. solve_decision. Defined.

(** The stores.  An absent entry stands for the attribute's initial value:
    a function without [__mtb_action], a descriptor whose [receiver] is
    [None], a [PortOut] as its descriptor's [__get__] creates it on first
    access. *)
Record world := {
  objects : heap;
  action_info : gmap nat ActionInfo;
  in_receiver : gmap nat pyfunc;
  out_state : gmap (nat * loc) PortOutState;
  components : gmap loc Component;
  trace : list event;
}.

Definition set_objects (h : heap) (w : world) : world :=
  {| objects := h; action_info := action_info w; in_receiver := in_receiver w;
     out_state := out_state w; components := components w; trace := trace w |}.

Definition set_action_info (m : gmap nat ActionInfo) (w : world) : world :=
  {| objects := objects w; action_info := m; in_receiver := in_receiver w;
     out_state := out_state w; components := components w; trace := trace w |}.

Definition set_in_receiver (m : gmap nat pyfunc) (w : world) : world :=
  {| objects := objects w; action_info := action_info w; in_receiver := m;
     out_state := out_state w; components := components w; trace := trace w |}.

Definition set_out_state (m : gmap (nat * loc) PortOutState) (w : world) : world :=
  {| objects := objects w; action_info := action_info w;
     in_receiver := in_receiver w; out_state := m;
     components := components w; trace := trace w |}.

Definition set_components (m : gmap loc Component) (w : world) : world :=
  {| objects := objects w; action_info := action_info w;
     in_receiver := in_receiver w; out_state := out_state w;
     components := m; trace := trace w |}.

Definition log_event (e : event) (w : world) : world :=
  {| objects := objects w; action_info := action_info w;
     in_receiver := in_receiver w; out_state := out_state w;
     components := components w; trace := trace w ++ [e] |}.

(** Running heap code inside the world. *)
Definition lift_heap {A} (m : M heap A) : M world A :=
  λ w, let '(r, h) := m (objects w) in (r, set_objects h w).

(** [setattr(f, _ACTION_INFO, info)] *)
Definition setattr_action_info (f : pyfunc) (info : ActionInfo) : M world unit :=
  modify (λ w, set_action_info (<[f_addr f := info]> (action_info w)) w).

(** [getattr(f, _ACTION_INFO)] *)
Definition getattr_action_info (f : pyfunc) : M world ActionInfo :=
  λ w, match action_info w !! f_addr f with
       | Some info => (inr info, w)
       | None => (inl AttributeError, w)
       end.

(** The decorator [action]: the bare form is [action ∅], the form with
    keyword arguments keeps them as the default-value providers. *)
Definition action (kwargs : gmap string provider) (f : pyfunc) : M world pyfunc :=
  setattr_action_info f {| default_getters := kwargs; connected := false |} ;;;
  ret f.

(** [is_action(f)]: the truth value of [getattr(f, _ACTION_INFO, False)]. *)
Definition is_action (f : pyfunc) (w : world) : bool :=
  bool_decide (is_Some (action_info w !! f_addr f)).

(** [_PortInDescriptor._set_receiver] *)
Definition _set_receiver (self : PortInDescriptor) (f : pyfunc) : M world unit :=
  λ w, match in_receiver w !! in_addr self with
       | Some _ => (inl ModelingError, w)
       | None => (inr tt, set_in_receiver (<[in_addr self := f]> (in_receiver w)) w)
       end.

(** The decorator [receiver(arg)]. *)
Definition receiver (arg : PortInDescriptor) (f : pyfunc) : M world pyfunc :=
  _set_receiver arg f ;;;
  setattr_action_info f {| default_getters := ∅; connected := false |} ;;;
  ret f.

(** [PortIn._safe_get_receiver] *)
Definition _safe_get_receiver (self : PortIn) : M world pyfunc :=
  λ w, match in_receiver w !! in_addr (in_descriptor self) with
       | None => (inl ModelingError, w)
       | Some f => (inr f, w)
       end.

(** [PortIn._receive] *)
Definition _receive (self : PortIn) (v : value) : M world unit :=
  f <- _safe_get_receiver self ;;
  modify (log_event (EvReceive self (f_addr f) v)) ;;;
  lift_heap (f_body f (in_owner self) [v]).

Definition out_key (p : PortOut) : nat * loc :=
  (out_addr (out_descriptor p), out_owner p).

Definition port_state (p : PortOut) (w : world) : PortOutState :=
  default new_port_out (out_state w !! out_key p).

Definition set_port_state (p : PortOut) (s : PortOutState) : M world unit :=
  modify (λ w, set_out_state (<[out_key p := s]> (out_state w)) w).

(** [PortOut._connect] *)
Definition _connect (self : PortOut) (q : PortIn) : M world unit :=
  s <- gets (port_state self) ;;
  set_port_state self {| receivers := receivers s ++ [q];
                         latest_value := latest_value s |} ;;;
  s <- gets (port_state self) ;;
  if cached (out_descriptor self) && negb (is_none (latest_value s))
  then _receive q (latest_value s)
  else ret tt.

(** [PortOut.send] *)
Definition send (self : PortOut) (v : value) : M world unit :=
  v' <- lift_heap (copy v) ;;
  s <- gets (port_state self) ;;
  set_port_state self {| receivers := receivers s; latest_value := v' |} ;;;
  s <- gets (port_state self) ;;
  for_each (receivers s)
    (λ q, s <- gets (port_state self) ;; _receive q (latest_value s)).

(** [PortIn.connect] *)
Definition connect (self : PortIn) (port_out : PortOut) : M world unit :=
  f <- _safe_get_receiver self ;;
  info <- getattr_action_info f ;;
  setattr_action_info f (set_connected true info) ;;;
  _connect port_out self.

(** [Action.connected] *)
Definition Action_connected (a : Action) (w : world) : exn + bool :=
  match action_info w !! f_addr (action_func a) with
  | Some info => inr (connected info)
  | None => inl AttributeError
  end.


(** [Action.get_default_value] *)
Definition Action_get_default_value (a : Action) (p : ActionParam)
  : M world value :=
  _ <- getattr_action_info (action_func a) ;;
  lift_heap (get_default_value p (owner a)).

(** *** Component construction *)

(** What a name of the class namespace is bound to: a function, a port
    descriptor, or a plain value (a field default). *)
Inductive member :=
| MFunction (f : pyfunc)
| MPortIn (d : PortInDescriptor)
| MPortOut (d : PortOutDescriptor)
| MValue (v : value).

(** A [Component] subclass: its name and its namespace in declaration
    order. *)
Record pyclass := {
  cls_name : string;
  cls_dict : list (string * member);
}.

(** [dir(self)]: the attribute names, without repetition, in sorted order.
    Python compares strings by code point; [String.le] is that order on
    byte strings.  The names that [Component] and [object] contribute, and
    the instance fields, are bound to values that are neither actions nor
    ports, so the scan passes over them; only the class namespace is kept. *)
Definition dir (cls : pyclass) : list string :=
  merge_sort String.le (remove_dups (cls_dict cls).*1).

Definition empty_component : Component :=
  {| _actions := []; _output_ports := []; _input_ports := [];
     _variables := [] |}.

Definition append_action (a : Action) (c : Component) : Component :=
  {| _actions := _actions c ++ [a]; _output_ports := _output_ports c;
     _input_ports := _input_ports c; _variables := _variables c |}.

Definition append_output_port (p : PortOut) (c : Component) : Component :=
  {| _actions := _actions c; _output_ports := _output_ports c ++ [p];
     _input_ports := _input_ports c; _variables := _variables c |}.

Definition append_input_port (q : PortIn) (c : Component) : Component :=
  {| _actions := _actions c; _output_ports := _output_ports c;
     _input_ports := _input_ports c ++ [q]; _variables := _variables c |}.

Definition set_variables (vs : list string) (c : Component) : Component :=
  {| _actions := _actions c; _output_ports := _output_ports c;
     _input_ports := _input_ports c; _variables := vs |}.

(** [Action(self, bound_func)]: the dataclass constructor followed by
    [__post_init__]. *)
Definition new_Action (self : loc) (f : pyfunc) : M world Action :=
  info <- getattr_action_info f ;;
  match action_params (f_argspec f) info (args (f_argspec f)) with
  | inl e => raise e
  | inr ps => ret {| owner := self; action_func := f; params := ps |}
  end.

(** The loop [for attr_name in dir(self)] of [Component.__post_init__].
    Reading a port descriptor through the instance yields the port object
    of that descriptor and this component. *)
Fixpoint scan (cls : pyclass) (self : loc) (names : list string)
    (c : Component) : M world Component :=
  match names with
  | [] => ret c
  | attr_name :: rest =>
      match get_assoc attr_name (cls_dict cls) with
      | Some (MFunction f) =>
          is_act <- gets (is_action f) ;;
          if is_act : bool
          then a <- new_Action self f ;;
               scan cls self rest (append_action a c)
          else scan cls self rest c
      | Some (MPortOut d) =>
          scan cls self rest
            (append_output_port {| out_descriptor := d; out_owner := self |} c)
      | Some (MPortIn d) =>
          scan cls self rest
            (append_input_port {| in_descriptor := d; in_owner := self |} c)
      | _ => scan cls self rest c
      end
  end.

(** [[name for name in vars(self) if not name.startswith("_")]] *)
Definition public_variables (h : heap) (self : loc) : list string :=
  match h !! self with
  | Some (OInstance _ attrs) =>
      filter (λ n, String.prefix "_" n = false) attrs.*1
  | _ => []
  end.

(** [self.init()]: the hook of the subclass when it defines one, the empty
    [Component.init] otherwise. *)
Definition call_init (cls : pyclass) (self : loc) : M world unit :=
  match get_assoc "init" (cls_dict cls) with
  | None => ret tt
  | Some (MFunction f) =>
      modify (log_event (EvInit self)) ;;; lift_heap (f_body f self [])
  | Some _ => raise TypeError
  end.

(** [Component.__post_init__].  The three lists are attributes of the
    instance; they are entered in the component store once the scan is
    over, an instance whose construction raised being unreachable. *)
Definition Component_post_init (cls : pyclass) (self : loc) : M world Component :=
  c <- scan cls self (dir cls) empty_component ;;
  vars <- gets (λ w, public_variables (objects w) self) ;;
  modify (λ w, set_components (<[self := set_variables vars c]> (components w)) w) ;;;
  call_init cls self ;;;
  ret (set_variables vars c).

(** [C(...)] for a component class [C]: the generated [__init__] stores the
    fields, then [__post_init__] runs. *)
Definition new_Component (cls : pyclass) (fields : list (string * value))
  : M world (loc * Component) :=
  self <- lift_heap (new_object (OInstance (cls_name cls) fields)) ;;
  c <- Component_post_init cls self ;;
  ret (self, c).

(** ** proxy.py *)

Record Call := {
  call_name : string;
  call_args : list value;
  call_kwds : gmap string value;
}.

#[global] Instance Call_eq_dec : EqDecision Call.
Proof. solve_decision. Defined.

(** A wrapped implementation: an object and the methods its class gives
    it.  A method is called with the object, the positional and the keyword
    arguments. *)
Record impl := {
  obj_self : loc;
  obj_methods : gmap string (loc → list value → gmap string value → M heap unit);
}.

(** The test harness: the object heap, the call-log lists by address, and
    the deliveries made so far, each with the position of the receiving
    implementation in [_proxy_for]. *)
Record harness := {
  h_objects : heap;
  call_logs : gmap nat (list Call);
  delivered : list (nat * Call);
}.

Definition read_log (log : nat) (s : harness) : list Call :=
  default [] (call_logs s !! log).

(** [log.append(c)] *)
Definition append_call (log : nat) (c : Call) : M harness unit :=
  modify (λ s, {| h_objects := h_objects s;
                  call_logs := <[log := read_log log s ++ [c]]> (call_logs s);
                  delivered := delivered s |}).

Definition log_delivery (i : nat) (c : Call) : M harness unit :=
  modify (λ s, {| h_objects := h_objects s; call_logs := call_logs s;
                  delivered := delivered s ++ [(i, c)] |}).

Definition lift_objects {A} (m : M heap A) : M harness A :=
  λ s, let '(r, h) := m (h_objects s) in
       (r, {| h_objects := h; call_logs := call_logs s;
              delivered := delivered s |}).

(** One turn of the loop of [proxy_func]: the method is looked up on the
    object by name and called with the same positional and keyword
    arguments.  [i] is the position of the object in [_proxy_for]. *)
Definition forward_to (c : Call) (i : nat) (obj : impl) : M harness unit :=
  match obj_methods obj !! call_name c with
  | None => raise AttributeError
  | Some func =>
      log_delivery i c ;;;
      lift_objects (func (obj_self obj) (call_args c) (call_kwds c))
  end.

(** The loop [for obj in self._proxy_for], counting the positions from [i]. *)
Fixpoint forward (c : Call) (i : nat) (objs : list impl) : M harness unit :=
  match objs with
  | [] => ret tt
  | obj :: rest => forward_to c i obj ;;; forward c (S i) rest
  end.

Record Proxy := {
  proxy_name : string;
  _calls : nat;
  _proxy_for : list impl;
  proxy_methods : list string;
}.

(** [make_proxy_method(name)], applied to the proxy and the arguments. *)
Definition proxy_func (name : string) (self : Proxy) (args : list value)
    (kwds : gmap string value) : M harness unit :=
  let c := {| call_name := name; call_args := args; call_kwds := kwds |} in
  append_call (_calls self) c ;;;
  forward c 0 (_proxy_for self).

(** A member of the capability class, as [make_proxy] looks at it. *)
Record cap_member := {
  m_isfunction : bool;
  m_has_action : bool;
}.

Record capability := {
  cap_name : string;
  cap_members : list (string * cap_member);
}.

(** The first argument of [make_proxy] is any object; [isclass] tells. *)
Inductive cls_arg :=
| AClass (cls : capability)
| NotAClass.

(** The names that [create_body] binds to a proxy method:
    [getmembers(cls, isfunction)], in sorted order, without those that lack
    the attribute [_action]. *)
Definition proxied_names (cls : capability) : list string :=
  merge_sort String.le
    (remove_dups
       (filter (λ nm, m_isfunction nm.2 && m_has_action nm.2 = true)
          (cap_members cls)).*1).

(** [make_proxy(cls, proxy_for, calls)]; the new class is instantiated
    without arguments. *)
Definition make_proxy (cls : cls_arg) (proxy_for : list impl) (calls : nat)
  : exn + Proxy :=
  match cls with
  | NotAClass => inl ValueError
  | AClass c =>
      inr {| proxy_name := cap_name c +:+ "Proxy"; _calls := calls;
             _proxy_for := proxy_for; proxy_methods := proxied_names c |}
  end.

(** A driver issuing the calls one after the other on the proxy. *)
Definition replay (p : Proxy) (cs : list Call) : M harness unit :=
  for_each cs (λ c, proxy_func (call_name c) p (call_args c) (call_kwds c)).

(** What the implementation at position [i] has received. *)
Definition received (i : nat) (s : harness) : list Call :=
  (filter (λ d, d.1 = i) (delivered s)).*2.

(** *** Reading a scan *)







(** The deliveries of [c] to the implementations [objs], which stand at
    the positions from [i] on; an implementation without the method takes
    none. *)
Fixpoint deliveries (c : Call) (i : nat) (objs : list impl) : list (nat * Call) :=
  match objs with
  | [] => []
  | obj :: rest =>
      match obj_methods obj !! call_name c with
      | Some _ => [(i, c)]
      | None => []
      end ++ deliveries c (S i) rest
  end.

(** One round: [c] delivered at every position below [n], in order. *)
Definition round (n : nat) (c : Call) : list (nat * Call) :=
  (λ i, (i, c)) <$> seq 0 n.

(** The rounds of a sequence of calls. *)
Definition rounds (n : nat) (cs : list Call) : list (nat * Call) :=
  cs ≫= round n.

(** ** The classes of the tests *)

Definition empty_world : world :=
  {| objects := ∅; action_info := ∅; in_receiver := ∅; out_state := ∅;
     components := ∅; trace := [] |}.

(** [def receive_d1(self, d: int): self.d = d] *)
Definition receive_d1 : pyfunc :=
  {| f_addr := 1; f_name := "receive_d1";
     f_argspec := {| args := ["self"; "d"]; annotations := {["d" := TInt]} |};
     f_body := λ self vs h,
       match vs with
       | [d] => (inr tt, setattr_value self "d" d h)
       | _ => (inl TypeError, h)
       end |}.

(** A second function with the same shape, for a second binding. *)
Definition receive_d2 : pyfunc :=
  {| f_addr := 2; f_name := "receive_d2";
     f_argspec := f_argspec receive_d1; f_body := f_body receive_d1 |}.

Definition d_in : PortInDescriptor := {| in_addr := 3; in_name := "d in" |}.

Definition d_out (c : bool) : PortOutDescriptor :=
  {| out_addr := 4; out_name := "d out"; cached := c |}.

(** The class [C1] of the port tests; [c] is the [cached] argument of
    [port_out]. *)
Definition C1 (c : bool) : pyclass :=
  {| cls_name := "C1";
     cls_dict := [("d_in", MPortIn d_in); ("d_out", MPortOut (d_out c));
                  ("d", MValue (VInt 0)); ("receive_d1", MFunction receive_d1)] |}.

(** The world after the class body of [C1] has run and one instance, at
    address [0], has been made. *)
Definition C1_world (c : bool) : world :=
  (new_Component (C1 c) [("d", VInt 0)] (receiver d_in receive_d1 empty_world).2).2.

Definition c_d_in : PortIn := {| in_descriptor := d_in; in_owner := 0 |}.

Definition c_d_out (c : bool) : PortOut :=
  {| out_descriptor := d_out c; out_owner := 0 |}.



(** [def set_d(self, d: int): self.d = d], decorated with the provider
    [lambda self: self.d]. *)
Definition set_d : pyfunc :=
  {| f_addr := 6; f_name := "set_d";
     f_argspec := {| args := ["self"; "d"]; annotations := {["d" := TInt]} |};
     f_body := f_body receive_d1 |}.

Definition current_d : provider := λ h self, getattr_value h self "d".

Definition param_d : ActionParam :=
  {| param_name := "d"; param_type := TInt; get_default := Some current_d |}.

(** A heap with one component at address [0] whose field [d] is [v]. *)
Definition heap_with_d (v : value) : heap := {[ 0 := OInstance "C" [("d", v)] ]}.


(** The class of the proxy test, with its one action [call], and two
    implementations that accept [call] and do nothing, as mocks do. *)
Definition Class : capability :=
  {| cap_name := "Class";
     cap_members := [("call", {| m_isfunction := true; m_has_action := true |})] |}.

Definition mock (addr : loc) : impl :=
  {| obj_self := addr;
     obj_methods := {["call" := λ _ _ _, ret tt]} |}.

(** An implementation whose [call] raises. *)
Definition failing (addr : loc) : impl :=
  {| obj_self := addr;
     obj_methods := {["call" := λ _ _ _, raise (Raised "AssertionError")]} |}.

Definition empty_harness : harness :=
  {| h_objects := ∅; call_logs := ∅; delivered := [] |}.

Definition the_call : Call :=
  {| call_name := "call"; call_args := [VInt 1; VStr "test"]; call_kwds := ∅ |}.



(** ** system.py: placing a port in the diagram *)

(** The outcome of one of the two loops of [_get_index]: the index at which
    the item was found, or the counter after the loop. *)
Inductive search :=
| Found (i : nat)
| Next (i : nat).

Fixpoint search_from {A} `{EqDecision A} (item : A) (l : list A) (i : nat)
  : search :=
  match l with
  | [] => Next i
  | x :: l' => if decide (x = item) then Found i else search_from item l' (S i)
  end.

(** [Component._get_index(item)]; the item is a [PortIn] or a [PortOut],
    and [is] between a port of one kind and one of the other is false. *)
Definition _get_index (self : Component) (item : PortIn + PortOut) : exn + nat :=
  let i := match _input_ports self with [] => 0 | _ => 1 end in
  let r := match item with
           | inl q => search_from q (_input_ports self) i
           | inr _ => Next (i + length (_input_ports self))
           end in
  match r with
  | Found k => inr k
  | Next i =>
      let i := match _output_ports self with [] => i | _ => S i end in
      match item with
      | inr p =>
          match search_from p (_output_ports self) i with
          | Found k => inr k
          | Next _ => inl ValueError
          end
      | inl _ => inl ValueError
      end
  end.

(** The index that the second loop of [_get_index] starts from: the row
    after the input rows and the label of the outputs. *)
Definition first_output_row (c : Component) : nat :=
  match _input_ports c with [] => 0 | _ => 1 + length (_input_ports c) end + 1.

(** ** diagram.py: the rows of a component box *)

(** What [render_io_elements] yields, in order: a section label, or the
    line of a port. *)
Inductive row :=
| RLabel (text : string)
| RInput (q : PortIn)
| ROutput (p : PortOut).

(** One of the two loops of [render_io_elements]: the counter next to
    each port line, and the counter after the loop.  Coordinates, which are
    floating-point, are left out. *)
Fixpoint port_rows {A} (mk : A → row) (i : nat) (l : list A)
  : list (nat * row) * nat :=
  match l with
  | [] => ([], i)
  | x :: l' =>
      let '(rows, j) := port_rows mk (S i) l' in ((i, mk x) :: rows, j)
  end.

(** A section: its label, when there is a port, then the ports. *)
Definition section_rows {A} (text : string) (mk : A → row) (i : nat)
    (l : list A) : list (nat * row) * nat :=
  match l with
  | [] => ([], i)
  | _ => let '(rows, j) := port_rows mk (S i) l in ((i, RLabel text) :: rows, j)
  end.

(** [render_io_elements(component)], as the counter and the kind of each
    element it yields. *)
Definition render_io_rows (c : Component) : list (nat * row) :=
  let '(ins, i) := section_rows "input ports" RInput 0 (_input_ports c) in
  let '(outs, _) := section_rows "output ports" ROutput i (_output_ports c) in
  ins ++ outs.

(** [io_item_count] of [component_height]. *)
Definition io_item_count (c : Component) : nat :=
  length (_output_ports c) + length (_input_ports c)
  + match _output_ports c with [] => 0 | _ => 1 end
  + match _input_ports c with [] => 0 | _ => 1 end.

Definition FONT_SIZE : nat := 12.

(** [component_height(component)] *)
Definition component_height (c : Component) : nat :=
  (io_item_count c + 2) * FONT_SIZE + 5.

(** ** model.py *)

(** A [System] instance: its [name], which [__post_init__] sets to the
    class name, and the namespace of its class, where an attribute is a
    component instance or something else. *)
Inductive system_member :=
| SComponent (c : loc)
| SOther (v : value).

Record System := {
  sys_name : string;
  sys_dict : list (string * system_member);
}.

(** [System.components] *)
Definition System_components (self : System) : list loc :=
  omap (λ kv, match kv.2 with SComponent c => Some c | SOther _ => None end)
    (sys_dict self).

(** [Model.get_system(name)] *)
Fixpoint get_system (systems : list System) (name : string) : option System :=
  match systems with
  | [] => None
  | system :: rest =>
      if decide (sys_name system = name) then Some system
      else get_system rest name
  end.

(** ** Names and text *)

(** Text is a list of characters of any alphabet; the functions below use
    of it a test for upper case and a few fixed characters. *)
Section text.
Context {C : Type} `{EqDecision C}.
Variable isupper : C → bool.
Variables space dot : C.

(** [" ".join(parts)] *)
Fixpoint join (parts : list (list C)) : list C :=
  match parts with
  | [] => []
  | [p] => p
  | p :: rest => p ++ space :: join rest
  end.

(** One turn of the loop of [snake_to_space], [parts] being a list that
    is not empty of strings that are not empty; an index out of range
    raises [IndexError]. *)
Definition snake_step (parts : list (list C)) (c : C) : exn + list (list C) :=
  match last parts with
  | None => inl IndexError
  | Some p =>
      match last p with
      | None => inl IndexError
      | Some prev =>
          if isupper c && negb (isupper prev)
          then inr (parts ++ [[c]])
          else inr (removelast parts ++ [p ++ [c]])
      end
  end.

Fixpoint snake_loop (parts : list (list C)) (cs : list C)
  : exn + list (list C) :=
  match cs with
  | [] => inr parts
  | c :: cs' =>
      match snake_step parts c with
      | inl e => inl e
      | inr parts' => snake_loop parts' cs'
      end
  end.

(** [snake_to_space(name)] *)
Definition snake_to_space (name : list C) : exn + list C :=
  match name with
  | [] => inl IndexError
  | c0 :: cs =>
      match snake_loop [[c0]] cs with
      | inl e => inl e
      | inr parts => inr (join parts)
      end
  end.

(** The same text written in one pass: a space goes before every upper
    case character that follows a character which is not upper case. *)
Fixpoint spaced (prev : C) (cs : list C) : list C :=
  match cs with
  | [] => []
  | c :: cs' =>
      if isupper c && negb (isupper prev)
      then space :: c :: spaced c cs'
      else c :: spaced c cs'
  end.

(** [truncate(value, length)], on the text [s] that [str(value)] gives. *)
Definition truncate (s : list C) (length : Z) : list C :=
  if bool_decide (0 < length)%Z && bool_decide (length < Z.of_nat (List.length s))%Z
  then take (Z.to_nat length) s ++ [dot; dot; dot]
  else s.
End text.

(** Upper case among the ASCII letters. *)
Definition ascii_isupper (a : Ascii.ascii) : bool :=
  (65 <=? Ascii.nat_of_ascii a) && (Ascii.nat_of_ascii a <=? 90).

(** ** guiutil.py: marking the changes of a variable tree *)

(** A node of the tree: its ["id"], its ["children"] (none when the key is
    absent) and whether it carries ["changed": True]. *)
#[warnings="-register-all"]
Inductive node :=
| Node (id : string) (children : list node) (changed : bool).

Definition node_id (n : node) : string :=
  match n with Node id _ _ => id end.

Definition node_children (n : node) : list node :=
  match n with Node _ children _ => children end.

Definition node_changed (n : node) : bool :=
  match n with Node _ _ changed => changed end.

(** The value under [id] of the dict comprehension
    [{child["id"]: child for child in children}]: the last child with that
    id. *)
Fixpoint child_by_id (id : string) (children : list node) : option node :=
  match children with
  | [] => None
  | c :: rest =>
      match child_by_id id rest with
      | Some c' => Some c'
      | None => if decide (node_id c = id) then Some c else None
      end
  end.

(** Whether a later child has the id: such a child takes the place of the
    earlier one in the dict, and the earlier one is not visited. *)
Definition shadowed (id : string) (rest : list node) : bool :=
  bool_decide (id ∈ node_id <$> rest).

(** [mark_node_changes(old_node, new_node)].  The function writes to
    [new_node] and to its children in place; the embedding returns the
    tree after the writes. *)
Fixpoint mark_node_changes (old_node : option node) (new_node : node) : node :=
  match new_node with
  | Node id children changed =>
      match old_node with
      | None => Node id children true
      | Some old =>
          if decide (node_id old = id) then
            let children' :=
              (fix visit (cs : list node) : list node :=
                 match cs with
                 | [] => []
                 | c :: rest =>
                     (if shadowed (node_id c) rest then c
                      else mark_node_changes
                             (child_by_id (node_id c) (node_children old)) c)
                     :: visit rest
                 end) children in
            Node id children'
              (changed ||
               existsb node_changed
                 ((fix values (cs : list node) : list node :=
                     match cs with
                     | [] => []
                     | c :: rest =>
                         if shadowed (node_id c) rest then values rest
                         else c :: values rest
                     end) children'))
          else Node id children true
      end
  end.

(** The two inner loops of [mark_node_changes], named for the proofs. *)
Definition visit_children (old_children : list node) : list node → list node :=
  fix visit (cs : list node) : list node :=
    match cs with
    | [] => []
    | c :: rest =>
        (if shadowed (node_id c) rest then c
         else mark_node_changes (child_by_id (node_id c) old_children) c)
        :: visit rest
    end.

Fixpoint dict_values (cs : list node) : list node :=
  match cs with
  | [] => []
  | c :: rest =>
      if shadowed (node_id c) rest then dict_values rest
      else c :: dict_values rest
  end.

(** A tree as [build_tree_node] makes it: no node is marked. *)
Fixpoint unmarked (n : node) : bool :=
  match n with
  | Node _ children changed =>
      negb changed && forallb unmarked children
  end.

(** [new] is found in [old]: the ids agree, and every child of [new] that
    the dict keeps has its id among the children of [old], where the last
    child with that id in turn contains it.  Children of [old] that [new]
    lacks do not count. *)
Fixpoint found_in (old new : node) : bool :=
  match new with
  | Node id children _ =>
      bool_decide (node_id old = id) &&
      (fix all (cs : list node) : bool :=
         match cs with
         | [] => true
         | c :: rest =>
             (shadowed (node_id c) rest ||
              match child_by_id (node_id c) (node_children old) with
              | Some o => found_in o c
              | None => false
              end) && all rest
         end) children
  end.

(** The inner loop of [found_in], named for the proofs. *)
Definition all_found (old_children : list node) : list node → bool :=
  fix all (cs : list node) : bool :=
    match cs with
    | [] => true
    | c :: rest =>
        (shadowed (node_id c) rest ||
         match child_by_id (node_id c) old_children with
         | Some o => found_in o c
         | None => false
         end) && all rest
    end.

(** The second tree is the first with marks added: the ids and the shape
    are the same, and a node that was marked is marked. *)
Fixpoint marks_added (n n' : node) : bool :=
  match n, n' with
  | Node id cs changed, Node id' cs' changed' =>
      bool_decide (id = id') && implb changed changed' &&
      (fix all (cs cs' : list node) : bool :=
         match cs, cs' with
         | [], [] => true
         | c :: rest, c' :: rest' => marks_added c c' && all rest rest'
         | _, _ => false
         end) cs cs'
  end.

(** The inner loop of [marks_added], named for the proofs. *)
Definition all_marks_added : list node → list node → bool :=
  fix all (cs cs' : list node) : bool :=
    match cs, cs' with
    | [], [] => true
    | c :: rest, c' :: rest' => marks_added c c' && all rest rest'
    | _, _ => false
    end.

(** The trees of [test_mark_new_tree_elements]. *)
Definition leaf (id : string) : node := Node id [] false.

Definition old_tree : node :=
  Node "name" [leaf "a: 0"; leaf "b: 0"; Node "c: c" [leaf "d: d"] false] false.

Definition new_tree : node :=
  Node "name" [leaf "a: 0"; leaf "b: 1"; Node "c: c" [leaf "d: e"] false;
               leaf "f: f"] false.

Definition ascii_space : Ascii.ascii := Ascii.ascii_of_nat 32.
Definition ascii_dot : Ascii.ascii := Ascii.ascii_of_nat 46.

(** Text of the tests, as lists of characters. *)
Definition text (s : string) : list Ascii.ascii := String.list_ascii_of_string s.

(** Induction on trees, with the hypothesis for every child. *)
Fixpoint node_children_ind (P : node → Prop)
    (H : ∀ id cs changed, Forall P cs → P (Node id cs changed))
    (n : node) : P n :=
  match n with
  | Node id cs changed =>
      H id cs changed
        ((fix all (cs : list node) : Forall P cs :=
            match cs as l return Forall P l with
            | [] => @List.Forall_nil _ P
            | c :: rest =>
                @List.Forall_cons _ P c rest (node_children_ind P H c) (all rest)
            end) cs)
  end.

(** * Properties *)

(** ** The monad *)

Lemma bind_inr {S A B} (m : M S A) (k : A → M S B) s a s' :
  m s = (inr a, s') → bind m k s = k a s'.
Proof. unfold bind. by intros ->. Qed.

Lemma bind_inl {S A B} (m : M S A) (k : A → M S B) s e s' :
  m s = (inl e, s') → bind m k s = (inl e, s').
Proof. unfold bind. by intros ->. Qed.

Lemma for_each_app {S A} (l1 l2 : list A) (body : A → M S unit) s :
  for_each (l1 ++ l2) body s =
  match for_each l1 body s with
  | (inl e, s') => (inl e, s')
  | (inr _, s') => for_each l2 body s'
  end.
Proof.
  revert s. induction l1 as [|x l1 IH]; intros s; simpl; [done|].
  unfold bind. destruct (body x s) as [[e|[]] s1]; [done|]. apply IH.
Qed.

(** ** Ports: what an operation leaves alone *)




Lemma _receive_bound q v w f :
  in_receiver w !! in_addr (in_descriptor q) = Some f →
  _receive q v w =
  let '(r, h) := f_body f (in_owner q) [v] (objects w) in
  (r, set_objects h (log_event (EvReceive q (f_addr f) v) w)).
Proof.
  intros Hf. unfold _receive, bind, _safe_get_receiver. rewrite Hf. simpl.
  unfold lift_heap. simpl. by destruct (f_body f _ _ _) as [[e|[]] h].
Qed.
















(** ** Ports: the claims *)

(** C8.  Once a [PortIn] descriptor has a receiver, binding another one,
    with [_set_receiver] or through the decorator [receiver], raises
    [ModelingError] and changes nothing; a [PortIn] of that descriptor goes
    on handing its values to the first receiver. *)
Theorem second_receiver_is_rejected d f1 f2 w :
  in_receiver w !! in_addr d = Some f1 →
  _set_receiver d f2 w = (inl ModelingError, w) ∧
  receiver d f2 w = (inl ModelingError, w) ∧
  ∀ q v, in_descriptor q = d →
    _safe_get_receiver q w = (inr f1, w) ∧
    _receive q v w =
      let '(r, h) := f_body f1 (in_owner q) [v] (objects w) in
      (r, set_objects h (log_event (EvReceive q (f_addr f1) v) w)).
Proof.
  intros H1.
  assert (_set_receiver d f2 w = (inl ModelingError, w)) as Hset.
  { unfold _set_receiver. by rewrite H1. }
  split; [done|]. split.
  { unfold receiver. by rewrite (bind_inl _ _ _ _ _ Hset). }
  intros q v <-. split.
  - unfold _safe_get_receiver. by rewrite H1.
  - by apply _receive_bound.
Qed.




(** ** Default values *)









(** ** Component construction *)










Lemma action_params_untyped argspec info names arg :
  arg ∈ names → arg ≠ "self" → annotations argspec !! arg = None →
  action_params argspec info names = inl ModelingError.
Proof.
  intros Hin Hself Hann. induction names as [|a rest IH]; [by apply elem_of_nil in Hin|].
  simpl. apply elem_of_cons in Hin as [<-|Hin].
  - rewrite decide_False by done. by rewrite Hann.
  - case_decide; [auto|].
    destruct (annotations argspec !! a); [|done].
    by rewrite (IH Hin).
Qed.

Lemma is_action_info f w :
  is_action f w = true → ∃ info, action_info w !! f_addr f = Some info.
Proof. unfold is_action. intros [info Hi]%bool_decide_eq_true. eauto. Qed.
















(** ** The proxy *)

Lemma forward_to_spec c i obj s r s' :
  forward_to c i obj s = (r, s') →
  call_logs s' = call_logs s ∧
  delivered s' = delivered s ++ deliveries c i [obj] ∧
  (r = inr tt → deliveries c i [obj] = [(i, c)]).
Proof.
  unfold forward_to. simpl.
  destruct (obj_methods obj !! call_name c) as [func|].
  - unfold bind, log_delivery, modify, lift_objects. simpl.
    destruct (func _ _ _ _) as [r0 h]. by intros [= <- <-].
  - intros [= <- <-]. by rewrite app_nil_r.
Qed.

(** The forwarding loop: the implementations are called in list order; a
    raise is the result of the loop and ends it. *)
Lemma forward_spec c objs : ∀ i s r s',
  forward c i objs s = (r, s') →
  call_logs s' = call_logs s ∧
  (∃ k, k ≤ length objs ∧
     delivered s' = delivered s ++ deliveries c i (take k objs)) ∧
  (r = inr tt →
     delivered s' = delivered s ++ ((λ j, (j, c)) <$> seq i (length objs))) ∧
  (∀ e, r = inl e →
     ∃ pre obj post s1, objs = pre ++ obj :: post ∧
       forward c i pre s = (inr tt, s1) ∧
       forward_to c (i + length pre) obj s1 = (inl e, s')).
Proof.
  induction objs as [|obj objs IH]; intros i s r s'; simpl.
  - intros [= <- <-]. split; [done|]. split.
    { exists 0. by rewrite app_nil_r. }
    split; [by rewrite app_nil_r|done].
  - unfold bind at 1. destruct (forward_to c i obj s) as [[e|[]] s1] eqn:Hio;
      pose proof (forward_to_spec _ _ _ _ _ _ Hio) as (Hl & Hd & Hok).
    + intros [= <- <-]. split; [done|]. split.
      { exists 1. split; [lia|]. by rewrite Hd. }
      split; [done|]. intros e0 [= <-]. exists [], obj, objs, s.
      simpl. by rewrite Nat.add_0_r.
    + intros (Hl' & (k & Hk & Hd') & Hall & Herr)%IH.
      split; [congruence|]. split.
      { exists (S k). split; [lia|]. rewrite Hd', Hd, <- app_assoc.
        simpl. by rewrite app_nil_r. }
      split.
      { intros Hr. rewrite (Hall Hr), Hd, (Hok eq_refl), <- app_assoc. done. }
      intros e He.
      destruct (Herr e He) as (pre & obj' & post & s2 & -> & Hpre & Hraise).
      exists (obj :: pre), obj', post, s2. split; [done|]. simpl.
      rewrite (bind_inr _ _ _ _ _ Hio). split; [done|].
      by replace (i + S (length pre)) with (S i + length pre) by lia.
Qed.


Lemma read_log_append log c s :
  read_log log (append_call log c s).2 = read_log log s ++ [c].
Proof. unfold read_log at 1. simpl. by rewrite lookup_insert_eq. Qed.







(** A replay that returns has logged the calls and gone through one round
    for each of them. *)
Lemma replay_spec p cs : ∀ s s',
  replay p cs s = (inr tt, s') →
  read_log (_calls p) s' = read_log (_calls p) s ++ cs ∧
  delivered s' = delivered s ++ rounds (length (_proxy_for p)) cs.
Proof.
  unfold replay, rounds. induction cs as [|c cs IH]; intros s s'; simpl.
  - intros [= <-]. by rewrite !app_nil_r.
  - unfold bind at 1.
    destruct (proxy_func (call_name c) p (call_args c) (call_kwds c) s)
      as [[e|[]] s1] eqn:Hp; [done|].
    intros [Hlog Hd]%IH. rewrite Hlog, Hd.
    assert (forward c 0 (_proxy_for p) (append_call (_calls p) c s).2 = (inr tt, s1))
      as Hf by (destruct c; exact Hp).
    destruct (forward_spec _ _ _ _ _ _ Hf) as (Hl & _ & Hall & _).
    rewrite (Hall eq_refl). unfold read_log at 1. rewrite Hl.
    fold (read_log (_calls p) (append_call (_calls p) c s).2).
    rewrite read_log_append, <- !app_assoc. done.
Qed.


(** ** The tests, and the claims at concrete inputs *)

(** [test_latest_value_is_received_on_connect] *)
Example latest_value_is_received_on_connect :
  let w1 := (send (c_d_out true) (VInt 1) (C1_world true)).2 in
  let w2 := (connect c_d_in (c_d_out true) w1).2 in
  getattr_value (objects w2) 0 "d" = VInt 1 ∧
  trace w2 = [EvReceive c_d_in 1 (VInt 1)].
Proof. by vm_compute. Qed.

(** [test_latest_value_is_not_received_on_connect_when_output_port_is_not_cached] *)
Example latest_value_is_not_received_when_not_cached :
  let w1 := (send (c_d_out false) (VInt 1) (C1_world false)).2 in
  let w2 := (connect c_d_in (c_d_out false) w1).2 in
  getattr_value (objects w2) 0 "d" = VInt 0 ∧ trace w2 = [].
Proof. by vm_compute. Qed.

(** [test_connected_receiver] *)
Example connected_receiver :
  let a := {| owner := 0; action_func := receive_d1; params := [] |} in
  Action_connected a (C1_world true) = inr false ∧
  Action_connected a (connect c_d_in (c_d_out true) (C1_world true)).2 = inr true.
Proof. by vm_compute. Qed.

(** [test_action_with_default_value] *)
Example action_with_default_value :
  (get_default_value param_d 0 (heap_with_d (VInt 0))).1 = inr (VInt 0) ∧
  (get_default_value param_d 0
     (f_body set_d 0 [VInt 1] (heap_with_d (VInt 0))).2).1 = inr (VInt 1).
Proof. by vm_compute. Qed.

(** The order of the lists is that of the names, not of the declaration. *)
Example actions_not_in_declaration_order :
  let b := {| f_addr := 8; f_name := "b"; f_argspec := f_argspec receive_d1;
              f_body := f_body receive_d1 |} in
  let a := {| f_addr := 9; f_name := "a"; f_argspec := f_argspec receive_d1;
              f_body := f_body receive_d1 |} in
  let cls := {| cls_name := "C"; cls_dict := [("b", MFunction b); ("a", MFunction a)] |} in
  let w := (action ∅ a (action ∅ b empty_world).2).2 in
  match (Component_post_init cls 0 w).1 with
  | inr c => f_name ∘ action_func <$> _actions c = ["a"; "b"]
  | inl _ => False
  end.
Proof. by vm_compute. Qed.

(** [test_foo] of the proxy tests. *)
Example proxy_test :
  match make_proxy (AClass Class) [mock 1; mock 2] 0 with
  | inr p =>
      let s := (proxy_func "call" p [VInt 1; VStr "test"] ∅ empty_harness).2 in
      read_log 0 s = [the_call] ∧ received 0 s = [the_call] ∧
      received 1 s = [the_call]
  | inl _ => False
  end.
Proof. by vm_compute. Qed.

(** C8 at the class [C1]: a second decorator on [d_in]. *)
Lemma second_receiver_is_rejected_witness :
  in_receiver (C1_world true) !! in_addr d_in = Some receive_d1 ∧
  receiver d_in receive_d2 (C1_world true) = (inl ModelingError, C1_world true).
Proof.
  split; [reflexivity|].
  apply (second_receiver_is_rejected d_in receive_d1 receive_d2 (C1_world true)).
  reflexivity.
Defined.














(** The implementation after the one that raised has received nothing,
    while the call is in the log. *)
Example raise_leaves_call_logged :
  let p := {| proxy_name := "ClassProxy"; _calls := 0;
              _proxy_for := [failing 1; mock 2]; proxy_methods := ["call"] |} in
  let s := (proxy_func "call" p [VInt 1; VStr "test"] ∅ empty_harness).2 in
  read_log 0 s = [the_call] ∧ received 0 s = [the_call] ∧ received 1 s = [].
Proof. by vm_compute. Qed.

(** * Further properties of the code *)

(** ** Decorators and connections *)

(** X1.  On a descriptor without receiver the decorator [receiver] binds
    the function: the ports of the descriptor now resolve to it, the
    function counts as an action that is not connected, and the bindings of
    the other descriptors, the ports, the heap and the trace are as
    before. *)
Theorem receiver_binds_and_registers_action d f w :
  in_receiver w !! in_addr d = None →
  ∃ w', receiver d f w = (inr f, w') ∧
    (∀ q, in_descriptor q = d → _safe_get_receiver q w' = (inr f, w')) ∧
    is_action f w' = true ∧
    (∀ a, action_func a = f → Action_connected a w' = inr false) ∧
    (∀ d', in_addr d' ≠ in_addr d →
           in_receiver w' !! in_addr d' = in_receiver w !! in_addr d') ∧
    (∀ g, f_addr g ≠ f_addr f →
          action_info w' !! f_addr g = action_info w !! f_addr g) ∧
    out_state w' = out_state w ∧ objects w' = objects w ∧
    components w' = components w ∧ trace w' = trace w.
Proof.
  intros Hd. eexists. split.
  { unfold receiver, bind, _set_receiver. rewrite Hd. reflexivity. }
  simpl. split.
  { intros q <-. unfold _safe_get_receiver. simpl. by rewrite lookup_insert_eq. }
  split. { unfold is_action. simpl. rewrite lookup_insert_eq.
           apply bool_decide_eq_true. eauto. }
  split. { intros a Ha. unfold Action_connected. rewrite Ha. simpl.
           by rewrite lookup_insert_eq. }
  split. { intros d' Hne. by rewrite lookup_insert_ne. }
  split; [|done]. intros g Hne. by rewrite lookup_insert_ne.
Qed.

Lemma receiver_binds_and_registers_action_witness :
  ∃ w', receiver d_in receive_d1 empty_world = (inr receive_d1, w') ∧
        is_action receive_d1 w' = true.
Proof.
  destruct (receiver_binds_and_registers_action d_in receive_d1 empty_world)
    as (w' & H1 & _ & H2 & _); [reflexivity|].
  exists w'. split; [exact H1|exact H2].
Defined.

Lemma action_params_getters argspec info names ps :
  action_params argspec info names = inr ps →
  param_name <$> ps = filter (λ arg, arg ≠ "self") names ∧
  Forall (λ p, annotations argspec !! param_name p = Some (param_type p) ∧
               get_default p = default_getters info !! param_name p) ps.
Proof.
  revert ps. induction names as [|arg rest IH]; intros ps; simpl.
  - intros [= <-]. split; [done|constructor].
  - rewrite filter_cons. case_decide as Hself.
    + rewrite decide_False by (intros H; by apply H). apply IH.
    + rewrite decide_True by done.
      destruct (annotations argspec !! arg) as [ty|] eqn:Hann; [|done].
      destruct (action_params argspec info rest) as [e|ps0]; [done|].
      intros [= <-]. destruct (IH ps0 eq_refl) as [Hn HF].
      split; [rewrite fmap_cons; simpl; by f_equal|]. by constructor.
Qed.

Lemma action_params_typed argspec info names :
  Forall (λ arg, arg = "self" ∨ is_Some (annotations argspec !! arg)) names →
  ∃ ps, action_params argspec info names = inr ps.
Proof.
  induction 1 as [|arg rest Harg _ [ps IH]]; simpl; [by eexists|].
  case_decide; [by exists ps|].
  destruct Harg as [?|[ty Hty]]; [done|]. rewrite Hty, IH. by eexists.
Qed.

Lemma action_params_ModelingError argspec info names :
  action_params argspec info names = inl ModelingError →
  ∃ arg, arg ∈ names ∧ arg ≠ "self" ∧ annotations argspec !! arg = None.
Proof.
  induction names as [|arg rest IH]; simpl; [done|].
  case_decide as Hself.
  - intros (a & Ha & ?)%IH. exists a. split; [by right|done].
  - destruct (annotations argspec !! arg) as [ty|] eqn:Hann.
    + destruct (action_params argspec info rest) as [e|ps]; [|done].
      intros [= ->]. destruct (IH eq_refl) as (a & Ha & ?).
      exists a. split; [by right|done].
    + intros _. exists arg. split; [left|done].
Qed.

(** X2.  The parameters of an action follow the signature of its function:
    when every positional parameter other than [self] is annotated, the
    action is built without a write to the world, and its parameters are
    those names, in order, each with its annotation as type and with the
    provider the decorator registered under its name; the constructor
    raises [ModelingError] exactly when such a parameter lacks its
    annotation. *)
Theorem action_parameters_follow_signature self f w :
  is_action f w = true →
  (Forall (λ arg, arg = "self" ∨ is_Some (annotations (f_argspec f) !! arg))
     (args (f_argspec f)) →
   ∃ a info, new_Action self f w = (inr a, w) ∧
     action_info w !! f_addr f = Some info ∧
     owner a = self ∧ action_func a = f ∧
     param_name <$> params a = filter (λ arg, arg ≠ "self") (args (f_argspec f)) ∧
     Forall (λ p, annotations (f_argspec f) !! param_name p = Some (param_type p) ∧
                  get_default p = default_getters info !! param_name p)
       (params a)) ∧
  (new_Action self f w = (inl ModelingError, w) ↔
   ∃ arg, arg ∈ args (f_argspec f) ∧ arg ≠ "self" ∧
          annotations (f_argspec f) !! arg = None).
Proof.
  intros Ha. destruct (is_action_info _ _ Ha) as [info Hi].
  assert (new_Action self f w =
          match action_params (f_argspec f) info (args (f_argspec f)) with
          | inl e => (inl e, w)
          | inr ps => (inr {| owner := self; action_func := f; params := ps |}, w)
          end) as Hnew.
  { unfold new_Action, bind, getattr_action_info. rewrite Hi.
    by destruct (action_params _ _ _). }
  split.
  - intros Htyped. destruct (action_params_typed _ info _ Htyped) as [ps Hps].
    rewrite Hnew, Hps. eexists _, info. split; [done|]. split; [done|].
    simpl. split; [done|]. split; [done|]. by apply action_params_getters.
  - rewrite Hnew. split.
    + destruct (action_params _ _ _) as [e|ps] eqn:Hp; [|done].
      intros [= ->]. by eapply action_params_ModelingError.
    + intros (arg & Hin & Hself & Hann).
      by rewrite (action_params_untyped _ _ _ _ Hin Hself Hann).
Qed.

Lemma action_parameters_follow_signature_witness :
  let w := (action {["d" := current_d]} set_d empty_world).2 in
  ∃ a, new_Action 0 set_d w = (inr a, w) ∧ param_name <$> params a = ["d"].
Proof.
  intros w.
  destruct (action_parameters_follow_signature 0 set_d w) as [Hok _];
    [reflexivity|].
  destruct Hok as (a & info & Hnew & _ & _ & _ & Hnames & _).
  { constructor; [left; reflexivity|].
    constructor; [right; vm_compute; eexists; reflexivity|]. constructor. }
  exists a. split; [exact Hnew|exact Hnames].
Defined.

(** X3.  Each of the decorators [action] and [receiver] installs a new
    [ActionInfo] on the function, whatever it carried: [action] leaves it
    with the given providers and not connected, also on a function that had
    been connected; [receiver] applied after [action] leaves it without
    providers, so the parameters of the action built from it have none. *)
Theorem decorators_replace_action_info kwargs d f w :
  action_info (action kwargs f w).2 !! f_addr f =
    Some {| default_getters := kwargs; connected := false |} ∧
  (in_receiver w !! in_addr d = None →
   let w2 := (receiver d f (action kwargs f w).2).2 in
   action_info w2 !! f_addr f =
     Some {| default_getters := ∅; connected := false |} ∧
   ∀ self a, new_Action self f w2 = (inr a, w2) →
             Forall (λ p, get_default p = None) (params a)).
Proof.
  split. { simpl. by rewrite lookup_insert_eq. }
  intros Hd w2.
  assert (action_info w2 !! f_addr f =
          Some {| default_getters := ∅; connected := false |}) as Hinfo.
  { subst w2. unfold receiver, bind, _set_receiver. simpl. rewrite Hd. simpl.
    by rewrite lookup_insert_eq. }
  split; [done|]. intros self a.
  unfold new_Action, bind, getattr_action_info. rewrite Hinfo.
  destruct (action_params _ _ _) as [e|ps] eqn:Hp; [done|].
  intros [= <-]. simpl. apply action_params_getters in Hp as [_ HF].
  eapply Forall_impl; [exact HF|]. intros p [_ ->]. apply lookup_empty.
Qed.






(** ** Defaults and the heap *)






(** ** The proxy: what is mirrored, and where a replay stops *)


(** X8.  A replay ends at the first call that raises: the calls before it
    and the call itself are in the log, in order, which then ends with the
    failing call; the calls after it are neither logged nor forwarded. *)
Theorem replay_stops_at_first_raise p cs1 c cs2 s s1 e s2 :
  replay p cs1 s = (inr tt, s1) →
  proxy_func (call_name c) p (call_args c) (call_kwds c) s1 = (inl e, s2) →
  replay p (cs1 ++ c :: cs2) s = (inl e, s2) ∧
  read_log (_calls p) s2 = read_log (_calls p) s ++ cs1 ++ [c] ∧
  ∃ k, k ≤ length (_proxy_for p) ∧
    delivered s2 = delivered s ++ rounds (length (_proxy_for p)) cs1
                   ++ deliveries c 0 (take k (_proxy_for p)).
Proof.
  intros H1 H2. split.
  { unfold replay in *. rewrite for_each_app, H1. simpl.
    by rewrite (bind_inl _ _ _ _ _ H2). }
  destruct (replay_spec _ _ _ _ H1) as [Hlog Hd].
  assert (forward c 0 (_proxy_for p) (append_call (_calls p) c s1).2 = (inl e, s2))
    as Hf by (destruct c; exact H2).
  destruct (forward_spec _ _ _ _ _ _ Hf) as (Hl & (k & Hk & Hdel) & _).
  split.
  - unfold read_log at 1. rewrite Hl.
    fold (read_log (_calls p) (append_call (_calls p) c s1).2).
    by rewrite read_log_append, Hlog, <- app_assoc.
  - exists k. split; [done|]. rewrite Hdel. simpl. by rewrite Hd, <- app_assoc.
Qed.

Lemma replay_stops_at_first_raise_witness :
  let p := {| proxy_name := "ClassProxy"; _calls := 0;
              _proxy_for := [mock 1; failing 2]; proxy_methods := ["call"] |} in
  replay p [the_call; the_call] empty_harness =
    (inl (Raised "AssertionError"),
     (replay p [the_call] empty_harness).2).
Proof.
  intros p.
  apply (replay_stops_at_first_raise p [] the_call [the_call] empty_harness
           empty_harness (Raised "AssertionError")).
  - reflexivity.
  - vm_compute. reflexivity.
Defined.

(** ** The diagram: rows and indices *)

Lemma search_from_spec {A} `{EqDecision A} (x : A) (l : list A) : ∀ i,
  match search_from x l i with
  | Found k => ∃ j, k = i + j ∧ l !! j = Some x ∧ ∀ j', j' < j → l !! j' ≠ Some x
  | Next k => k = i + length l ∧ x ∉ l
  end.
Proof.
  induction l as [|y l IH]; intros i; simpl.
  - split; [lia|]. apply not_elem_of_nil.
  - case_decide as Hy.
    + subst y. exists 0. split; [lia|]. split; [done|]. lia.
    + specialize (IH (S i)). destruct (search_from x l (S i)) as [k|k].
      * destruct IH as (j & -> & Hj & Hfirst). exists (S j).
        split; [lia|]. split; [done|]. intros [|j'] Hlt; simpl.
        -- congruence.
        -- apply Hfirst. lia.
      * destruct IH as [-> Hnotin]. split; [lia|].
        apply not_elem_of_cons. split; [congruence|done].
Qed.

Lemma first_occurrence {A} `{EqDecision A} (x : A) (l : list A) :
  x ∈ l → ∃ j, l !! j = Some x ∧ ∀ j', j' < j → l !! j' ≠ Some x.
Proof.
  intros Hin. pose proof (search_from_spec x l 0) as Hs.
  destruct (search_from x l 0) as [k|k].
  - destruct Hs as (j & _ & Hj & Hf). eauto.
  - by destruct Hs as [_ ?].
Qed.

Lemma _get_index_input c q i :
  _get_index c (inl q) = inr i ↔
  ∃ j, i = 1 + j ∧ _input_ports c !! j = Some q ∧
       ∀ j', j' < j → _input_ports c !! j' ≠ Some q.
Proof.
  unfold _get_index.
  pose proof (search_from_spec q (_input_ports c)
                match _input_ports c with [] => 0 | _ => 1 end) as Hs.
  destruct (search_from q (_input_ports c) _) as [k|k].
  - destruct Hs as (j & -> & Hj & Hfirst).
    assert (match _input_ports c with [] => 0 | _ => 1 end = 1) as ->.
    { destruct (_input_ports c); [done|done]. }
    split.
    + intros [= <-]. by exists j.
    + intros (j2 & -> & Hj2 & Hfirst2). f_equal.
      destruct (Nat.lt_trichotomy j j2) as [Hlt|[->|Hlt]]; [|done|].
      * by destruct (Hfirst2 j Hlt).
      * by destruct (Hfirst j2 Hlt).
  - destruct Hs as [_ Hnotin]. split.
    + by destruct (_output_ports c).
    + intros (j & _ & Hj & _). destruct Hnotin.
      apply list_elem_of_lookup. eauto.
Qed.

Lemma _get_index_output c p i :
  _get_index c (inr p) = inr i ↔
  ∃ j, i = first_output_row c + j ∧ _output_ports c !! j = Some p ∧
       ∀ j', j' < j → _output_ports c !! j' ≠ Some p.
Proof.
  unfold _get_index, first_output_row.
  set (i0 := match _input_ports c with [] => 0 | _ => 1 end + length (_input_ports c)).
  set (b := match _input_ports c with [] => 0 | _ => 1 + length (_input_ports c) end + 1).
  destruct (_output_ports c) as [|p0 ps] eqn:Hout.
  { simpl. split; [done|]. by intros (j & _ & Hj & _). }
  assert (S i0 = b) as Hb.
  { subst i0 b. destruct (_input_ports c); simpl; lia. }
  pose proof (search_from_spec p (p0 :: ps) (S i0)) as Hs.
  destruct (search_from p (p0 :: ps) (S i0)) as [k|k].
  - destruct Hs as (j & -> & Hj & Hfirst). rewrite Hb. split.
    + intros [= <-]. by exists j.
    + intros (j2 & -> & Hj2 & Hfirst2). f_equal.
      destruct (Nat.lt_trichotomy j j2) as [Hlt|[->|Hlt]]; [|done|].
      * by destruct (Hfirst2 j Hlt).
      * by destruct (Hfirst j2 Hlt).
  - destruct Hs as [_ Hnotin]. split; [done|].
    intros (j & _ & Hj & _). destruct Hnotin.
    apply list_elem_of_lookup. eauto.
Qed.

Lemma _get_index_error c item e : _get_index c item = inl e → e = ValueError.
Proof.
  unfold _get_index. destruct item as [q|p].
  - destruct (search_from q _ _); [done|].
    destruct (_output_ports c); by intros [= <-].
  - destruct (_output_ports c); [by intros [= <-]|].
    destruct (search_from p _ _); [done|]. by intros [= <-].
Qed.

(** X9.  [_get_index] gives a port of the component the row of its first
    occurrence: the inputs follow their label from row [1] on, the outputs
    follow theirs after the inputs.  It raises [ValueError] exactly for a
    port that is in neither list.  An index is never that of a label: it is
    at least [1] and below the number of rows the height of the box
    provides, and two ports with the same index are the same port. *)
Theorem get_index_is_the_row_of_the_port c :
  (∀ q i, _get_index c (inl q) = inr i ↔
          ∃ j, i = 1 + j ∧ _input_ports c !! j = Some q ∧
               ∀ j', j' < j → _input_ports c !! j' ≠ Some q) ∧
  (∀ p i, _get_index c (inr p) = inr i ↔
          ∃ j, i = first_output_row c + j ∧ _output_ports c !! j = Some p ∧
               ∀ j', j' < j → _output_ports c !! j' ≠ Some p) ∧
  (∀ q, _get_index c (inl q) = inl ValueError ↔ q ∉ _input_ports c) ∧
  (∀ p, _get_index c (inr p) = inl ValueError ↔ p ∉ _output_ports c) ∧
  (∀ item i, _get_index c item = inr i → 1 ≤ i < io_item_count c) ∧
  (∀ item item' i, _get_index c item = inr i → _get_index c item' = inr i →
                   item = item').
Proof.
  assert (∀ item i, _get_index c item = inr i →
            match item with
            | inl q => ∃ j, i = 1 + j ∧ _input_ports c !! j = Some q
            | inr p => ∃ j, i = first_output_row c + j ∧ _output_ports c !! j = Some p
            end) as Hpos.
  { intros [q|p] i.
    - intros H. apply _get_index_input in H as (j & ? & ? & _). eauto.
    - intros H. apply _get_index_output in H as (j & ? & ? & _). eauto. }
  split; [apply _get_index_input|]. split; [apply _get_index_output|].
  split; [|split; [|split]].
  - intros q. split.
    + intros Herr Hin. destruct (first_occurrence _ _ Hin) as (j & Hj & Hf).
      assert (_get_index c (inl q) = inr (1 + j)) as Hok
        by (apply _get_index_input; eauto).
      congruence.
    + intros Hnotin. destruct (_get_index c (inl q)) as [e|i] eqn:Hg.
      * by rewrite (_get_index_error _ _ _ Hg).
      * destruct (Hpos _ _ Hg) as (j & _ & Hj). destruct Hnotin.
        apply list_elem_of_lookup. eauto.
  - intros p. split.
    + intros Herr Hin. destruct (first_occurrence _ _ Hin) as (j & Hj & Hf).
      assert (_get_index c (inr p) = inr (first_output_row c + j)) as Hok
        by (apply _get_index_output; eauto).
      congruence.
    + intros Hnotin. destruct (_get_index c (inr p)) as [e|i] eqn:Hg.
      * by rewrite (_get_index_error _ _ _ Hg).
      * destruct (Hpos _ _ Hg) as (j & _ & Hj). destruct Hnotin.
        apply list_elem_of_lookup. eauto.
  - intros item i Hg. apply Hpos in Hg. unfold io_item_count, first_output_row in *.
    destruct item as [q|p]; destruct Hg as (j & -> & Hj);
      apply lookup_lt_Some in Hj;
      destruct (_input_ports c), (_output_ports c); simpl in *; lia.
  - intros item item' i Hg Hg'.
    pose proof (Hpos _ _ Hg) as H1. pose proof (Hpos _ _ Hg') as H2.
    unfold first_output_row in *.
    destruct item as [q|p], item' as [q'|p'];
      destruct H1 as (j & Hi & Hj); destruct H2 as (j' & Hi' & Hj').
    + assert (j = j') as -> by lia. congruence.
    + apply lookup_lt_Some in Hj. destruct (_input_ports c); simpl in *; lia.
    + apply lookup_lt_Some in Hj'. destruct (_input_ports c); simpl in *; lia.
    + assert (j = j') as -> by lia. congruence.
Qed.

Lemma port_rows_spec {A} (mk : A → row) (l : list A) : ∀ i,
  port_rows mk i l = (zip (seq i (length l)) (mk <$> l), i + length l).
Proof.
  induction l as [|x l IH]; intros i; simpl.
  - f_equal. lia.
  - rewrite IH. simpl. do 2 f_equal. lia.
Qed.

Lemma elem_of_zip_seq {A} (mk : A → row) (b : nat) (l : list A) i r :
  (i, r) ∈ zip (seq b (length l)) (mk <$> l) ↔
  ∃ j x, i = b + j ∧ l !! j = Some x ∧ r = mk x.
Proof.
  rewrite elem_of_lookup_zip_with. split.
  - intros (j & i' & r' & [= -> ->] & Hseq & Hr).
    apply lookup_seq in Hseq as [-> _].
    apply list_lookup_fmap_Some in Hr as (x & -> & Hx). by exists j, x.
  - intros (j & x & -> & Hx & ->). exists j, (b + j), (mk x).
    split; [done|]. split.
    + apply lookup_seq. split; [done|]. by apply lookup_lt_Some in Hx.
    + apply list_lookup_fmap_Some. by exists x.
Qed.

Lemma render_io_rows_eq c :
  render_io_rows c =
  match _input_ports c with
  | [] => []
  | _ => (0, RLabel "input ports")
           :: zip (seq 1 (length (_input_ports c))) (RInput <$> _input_ports c)
  end ++
  match _output_ports c with
  | [] => []
  | _ => (first_output_row c - 1, RLabel "output ports")
           :: zip (seq (first_output_row c) (length (_output_ports c)))
                (ROutput <$> _output_ports c)
  end.
Proof.
  unfold render_io_rows, section_rows, first_output_row.
  destruct (_input_ports c) as [|q qs] eqn:Hin;
    destruct (_output_ports c) as [|p ps] eqn:Hout; simpl;
    rewrite ?port_rows_spec; simpl; rewrite ?port_rows_spec; simpl;
    repeat f_equal; lia.
Qed.

(** X10.  The rows that [render_io_elements] draws are numbered from [0]
    without gap, and there are as many of them as [component_height] makes
    room for.  [_get_index] agrees with the drawing: the index it gives a
    port is a row on which that port is drawn, and when no port is listed
    twice a port is drawn on no other row. *)
Theorem drawn_rows_agree_with_get_index c :
  (render_io_rows c).*1 = seq 0 (io_item_count c) ∧
  component_height c = (length (render_io_rows c) + 2) * 12 + 5 ∧
  (∀ q i, _get_index c (inl q) = inr i → (i, RInput q) ∈ render_io_rows c) ∧
  (∀ p i, _get_index c (inr p) = inr i → (i, ROutput p) ∈ render_io_rows c) ∧
  (NoDup (_input_ports c) →
   ∀ q i, (i, RInput q) ∈ render_io_rows c → _get_index c (inl q) = inr i) ∧
  (NoDup (_output_ports c) →
   ∀ p i, (i, ROutput p) ∈ render_io_rows c → _get_index c (inr p) = inr i).
Proof.
  assert ((render_io_rows c).*1 = seq 0 (io_item_count c)) as Hnum.
  { rewrite render_io_rows_eq. unfold io_item_count, first_output_row.
    destruct (_input_ports c) as [|q qs] eqn:Hin;
      destruct (_output_ports c) as [|p ps] eqn:Hout; [done|..].
    - transitivity (seq 0 (S (S (length ps)))); [|f_equal; simpl; lia].
      rewrite app_nil_l, (fmap_cons fst).
      by rewrite fst_zip by (rewrite length_fmap, length_seq; simpl; lia).
    - transitivity (seq 0 (S (S (length qs)))); [|f_equal; simpl; lia].
      rewrite app_nil_r, (fmap_cons fst).
      by rewrite fst_zip by (rewrite length_fmap, length_seq; simpl; lia).
    - transitivity (seq 0 (S (S (length qs)) + S (S (length ps))));
        [|f_equal; simpl; lia].
      rewrite seq_app, fmap_app, !(fmap_cons fst).
      rewrite !fst_zip by (rewrite length_fmap, length_seq; simpl; lia).
      simpl. replace (length qs - 0) with (length qs) by lia.
      replace (length qs + 1) with (S (length qs)) by lia. done. }
  assert (∀ q i, (i, RInput q) ∈ render_io_rows c ↔
                 ∃ j, i = 1 + j ∧ _input_ports c !! j = Some q) as HI.
  { intros q i. rewrite render_io_rows_eq, elem_of_app. split.
    - intros [Hin|Hout].
      + destruct (_input_ports c) as [|q0 qs] eqn:Hqs; [by apply elem_of_nil in Hin|].
        apply elem_of_cons in Hin as [[=]|Hin].
        apply elem_of_zip_seq in Hin as (j & x & -> & Hx & [= ->]). eauto.
      + destruct (_output_ports c) as [|p0 ps]; [by apply elem_of_nil in Hout|].
        apply elem_of_cons in Hout as [[=]|Hout].
        by apply elem_of_zip_seq in Hout as (j & x & _ & _ & [=]).
    - intros (j & -> & Hj). left.
      destruct (_input_ports c) as [|q0 qs] eqn:Hqs; [done|].
      right. apply elem_of_zip_seq. by exists j, q. }
  assert (∀ p i, (i, ROutput p) ∈ render_io_rows c ↔
                 ∃ j, i = first_output_row c + j ∧ _output_ports c !! j = Some p)
    as HO.
  { intros p i. rewrite render_io_rows_eq, elem_of_app. split.
    - intros [Hin|Hout].
      + destruct (_input_ports c) as [|q0 qs]; [by apply elem_of_nil in Hin|].
        apply elem_of_cons in Hin as [[=]|Hin].
        by apply elem_of_zip_seq in Hin as (j & x & _ & _ & [=]).
      + destruct (_output_ports c) as [|p0 ps] eqn:Hps; [by apply elem_of_nil in Hout|].
        apply elem_of_cons in Hout as [[=]|Hout].
        apply elem_of_zip_seq in Hout as (j & x & -> & Hx & [= ->]). eauto.
    - intros (j & -> & Hj). right.
      destruct (_output_ports c) as [|p0 ps] eqn:Hps; [done|].
      right. apply elem_of_zip_seq. by exists j, p. }
  split; [done|]. split.
  { unfold component_height, FONT_SIZE.
    by rewrite <- (length_fmap fst), Hnum, length_seq. }
  split. { intros q i H. apply _get_index_input in H as (j & ? & ? & _).
           apply HI. eauto. }
  split. { intros p i H. apply _get_index_output in H as (j & ? & ? & _).
           apply HO. eauto. }
  split.
  - intros Hnd q i (j & -> & Hj)%HI. apply _get_index_input.
    exists j. split; [done|]. split; [done|]. intros j' Hlt Hj'.
    pose proof (NoDup_lookup _ _ _ _ Hnd Hj Hj'). lia.
  - intros Hnd p i (j & -> & Hj)%HO. apply _get_index_output.
    exists j. split; [done|]. split; [done|]. intros j' Hlt Hj'.
    pose proof (NoDup_lookup _ _ _ _ Hnd Hj Hj'). lia.
Qed.

(** ** Looking up a system *)

(** X11.  [get_system] returns the first system with the name: the result
    has the name and no system before it in the list has; it returns
    [None] exactly when no system of the list has the name. *)
Theorem get_system_finds_the_first systems name :
  (∀ system, get_system systems name = Some system ↔
     ∃ before after, systems = before ++ system :: after ∧
       sys_name system = name ∧
       Forall (λ s, sys_name s ≠ name) before) ∧
  (get_system systems name = None ↔ Forall (λ s, sys_name s ≠ name) systems).
Proof.
  induction systems as [|s rest [IHs IHn]]; simpl.
  - split.
    + intros system. split; [done|]. intros (b & a & H & _). by destruct b.
    + split; [constructor|done].
  - case_decide as Hs.
    + split.
      * intros system. split.
        -- intros [= <-]. exists [], rest. by repeat split.
        -- intros ([|s0 b] & a & Heq & Hname & Hb).
           ++ by injection Heq as ->.
           ++ injection Heq as -> _. by apply Forall_cons in Hb as [? _].
      * split; [done|]. by intros [? _]%Forall_cons.
    + split.
      * intros system. rewrite IHs. split.
        -- intros (b & a & -> & Hname & Hb). exists (s :: b), a.
           split; [done|]. split; [done|]. by constructor.
        -- intros ([|s0 b] & a & Heq & Hname & Hb).
           ++ injection Heq as -> _. done.
           ++ injection Heq as -> ->. apply Forall_cons in Hb as [_ Hb]. eauto.
      * rewrite IHn. split; [by constructor|]. by intros [_ ?]%Forall_cons.
Qed.

(** ** Names and text *)

Section text_properties.
Context {C : Type} `{EqDecision C}.
Variable isupper : C → bool.
Variables space dot : C.

Lemma join_snoc_char init (p : list C) c :
  join space (init ++ [p ++ [c]]) = join space (init ++ [p]) ++ [c].
Proof.
  induction init as [|x init IH]; simpl; [done|].
  destruct (init ++ [p ++ [c]]) as [|y r] eqn:H1; [by destruct init|].
  destruct (init ++ [p]) as [|y' r'] eqn:H2; [by destruct init|].
  rewrite IH. by rewrite <- app_assoc.
Qed.

Lemma join_snoc_part parts x (p : list C) :
  join space ((x :: parts) ++ [p]) = join space (x :: parts) ++ space :: p.
Proof.
  revert x. induction parts as [|y parts IH]; intros x; [done|].
  change (join space ((x :: y :: parts) ++ [p]))
    with (x ++ space :: join space ((y :: parts) ++ [p])).
  rewrite IH. change (join space (x :: y :: parts))
    with (x ++ space :: join space (y :: parts)).
  by rewrite <- app_assoc.
Qed.

Lemma join_snoc_nonempty parts (p : list C) :
  parts ≠ [] → join space (parts ++ [p]) = join space parts ++ space :: p.
Proof. destruct parts as [|x parts]; [done|]. intros _. apply join_snoc_part. Qed.

(** The loop keeps its two indexings in range, and what it has joined so
    far is what one pass writes. *)
Lemma snake_loop_spec cs : ∀ init p prev,
  ∃ parts, snake_loop isupper (init ++ [p ++ [prev]]) cs = inr parts ∧
    join space parts =
      join space (init ++ [p ++ [prev]]) ++ spaced isupper space prev cs.
Proof.
  induction cs as [|c cs IH]; intros init p prev; simpl.
  - eexists. split; [done|]. by rewrite app_nil_r.
  - unfold snake_step. rewrite !last_snoc.
    destruct (isupper c && negb (isupper prev)).
    + destruct (IH (init ++ [p ++ [prev]]) [] c) as (parts & Hl & Hj).
      simpl in Hl, Hj. rewrite Hl.
      exists parts. split; [done|]. rewrite Hj.
      rewrite join_snoc_nonempty by (by destruct init).
      by rewrite <- app_assoc.
    + rewrite removelast_last.
      destruct (IH init (p ++ [prev]) c) as (parts & -> & Hj).
      exists parts. split; [done|]. rewrite Hj, join_snoc_char.
      by rewrite <- app_assoc.
Qed.

Lemma spaced_filter prev cs :
  filter (λ c, c ≠ space) (spaced isupper space prev cs) =
  filter (λ c, c ≠ space) cs.
Proof.
  revert prev. induction cs as [|c cs IH]; intros prev; simpl; [done|].
  destruct (isupper c && negb (isupper prev)).
  - rewrite filter_cons, decide_False by (intros H; by apply H).
    by rewrite !filter_cons, IH.
  - by rewrite !filter_cons, IH.
Qed.

(** X12.  [snake_to_space] raises [IndexError] on the empty name and on
    no other: its indexings of the parts are always in range.  The
    result is the name with a space put before every upper case
    character that follows one which is not upper case; taking the
    spaces out of the result gives what taking them out of the name
    gives, so a name without spaces is recovered. *)
Theorem snake_to_space_puts_spaces_before_words name :
  (name = [] → snake_to_space isupper space name = inl IndexError) ∧
  (∀ c0 cs, name = c0 :: cs →
     snake_to_space isupper space name =
       inr (c0 :: spaced isupper space c0 cs)) ∧
  (∀ r, snake_to_space isupper space name = inr r →
     filter (λ c, c ≠ space) r = filter (λ c, c ≠ space) name ∧
     (space ∉ name → filter (λ c, c ≠ space) r = name)).
Proof.
  assert (∀ c0 cs, snake_to_space isupper space (c0 :: cs) =
                   inr (c0 :: spaced isupper space c0 cs)) as Hok.
  { intros c0 cs. unfold snake_to_space.
    destruct (snake_loop_spec cs [] [] c0) as (parts & Hl & Hj).
    simpl in Hl, Hj. by rewrite Hl, Hj. }
  split; [by intros ->|]. split; [by intros c0 cs ->|].
  intros r. destruct name as [|c0 cs]; [done|]. rewrite Hok. intros [= <-].
  assert (filter (λ c, c ≠ space) (c0 :: spaced isupper space c0 cs) =
          filter (λ c, c ≠ space) (c0 :: cs)) as Hf.
  { by rewrite !(filter_cons _ c0), spaced_filter. }
  split; [done|]. intros Hnotin. rewrite Hf.
  clear Hf Hok. induction (c0 :: cs) as [|x l IH]; [done|].
  apply not_elem_of_cons in Hnotin as [Hx Hl].
  rewrite filter_cons, decide_True by done. by rewrite IH.
Qed.

(** X13.  [truncate] returns the text as it is when the length given is
    not positive or the text is not longer than it; otherwise it returns
    the first [length] characters followed by three dots.  The result is
    therefore at most two characters longer than the text, agrees with
    the text on the first [length] characters, and truncating it again
    changes nothing. *)
Theorem truncate_keeps_a_prefix (s : list C) (n : Z) :
  ((n ≤ 0 ∨ Z.of_nat (length s) ≤ n)%Z → truncate dot s n = s) ∧
  ((0 < n < Z.of_nat (length s))%Z →
     truncate dot s n = take (Z.to_nat n) s ++ [dot; dot; dot] ∧
     length (truncate dot s n) = Z.to_nat n + 3) ∧
  length (truncate dot s n) ≤ length s + 2 ∧
  take (Z.to_nat n) (truncate dot s n) = take (Z.to_nat n) s ∧
  truncate dot (truncate dot s n) n = truncate dot s n.
Proof.
  assert ((0 < n < Z.of_nat (length s))%Z →
          truncate dot s n = take (Z.to_nat n) s ++ [dot; dot; dot]) as Hcut.
  { intros [H1 H2]. unfold truncate.
    by rewrite !bool_decide_eq_true_2 by done. }
  assert ((n ≤ 0 ∨ Z.of_nat (length s) ≤ n)%Z → truncate dot s n = s) as Hkeep.
  { intros Hn. unfold truncate. destruct Hn.
    - by rewrite bool_decide_eq_false_2 by lia.
    - rewrite (bool_decide_eq_false_2 (n < _)%Z) by lia.
      by rewrite andb_false_r. }
  assert ((0 < n < Z.of_nat (length s))%Z →
          length (take (Z.to_nat n) s ++ [dot; dot; dot]) = Z.to_nat n + 3) as Hlen.
  { intros Hn. rewrite length_app, length_take. simpl. lia. }
  split; [done|]. split.
  { intros Hn. split; [by apply Hcut|]. rewrite Hcut by done. by apply Hlen. }
  destruct (decide (0 < n < Z.of_nat (length s))%Z) as [Hn|Hn].
  - rewrite (Hcut Hn). split; [rewrite (Hlen Hn); lia|]. split.
    + rewrite take_app_le by (rewrite length_take; lia).
      by rewrite take_take, Nat.min_id.
    + unfold truncate at 1. rewrite (Hlen Hn).
      rewrite !bool_decide_eq_true_2 by lia. simpl.
      rewrite take_app_le by (rewrite length_take; lia).
      by rewrite take_take, Nat.min_id.
  - rewrite Hkeep by lia. split; [lia|]. split; [done|]. apply Hkeep. lia.
Qed.
End text_properties.

Lemma snake_to_space_puts_spaces_before_words_witness :
  snake_to_space ascii_isupper ascii_space (text "AtmMachine") = inr (text "Atm Machine") ∧
  snake_to_space ascii_isupper ascii_space (text "HTTPServer") = inr (text "HTTPServer") ∧
  snake_to_space ascii_isupper ascii_space (text "myXMLParser") = inr (text "my XMLParser").
Proof.
  split; [|split].
  - destruct (snake_to_space_puts_spaces_before_words ascii_isupper ascii_space
                (text "AtmMachine")) as (_ & H & _).
    exact (H _ _ eq_refl).
  - destruct (snake_to_space_puts_spaces_before_words ascii_isupper ascii_space
                (text "HTTPServer")) as (_ & H & _).
    exact (H _ _ eq_refl).
  - destruct (snake_to_space_puts_spaces_before_words ascii_isupper ascii_space
                (text "myXMLParser")) as (_ & H & _).
    exact (H _ _ eq_refl).
Defined.

Lemma truncate_keeps_a_prefix_witness :
  truncate ascii_dot (text "abcdefghijk") 10 = text "abcdefghij..." ∧
  length (truncate ascii_dot (text "abcdefghijk") 10) = Z.to_nat 10 + 3.
Proof.
  destruct (truncate_keeps_a_prefix ascii_dot (text "abcdefghijk") 10)
    as (_ & H & _).
  apply H. vm_compute. split; reflexivity.
Defined.

(** ** Marking the changes of a tree *)

Lemma mark_node_changes_Some old id cs changed :
  mark_node_changes (Some old) (Node id cs changed) =
  if decide (node_id old = id) then
    Node id (visit_children (node_children old) cs)
      (changed ||
       existsb node_changed (dict_values (visit_children (node_children old) cs)))
  else Node id cs true.
Proof. reflexivity. Qed.

Lemma found_in_eq old id cs changed :
  found_in old (Node id cs changed) =
  bool_decide (node_id old = id) && all_found (node_children old) cs.
Proof. reflexivity. Qed.

Lemma marks_added_eq id cs changed id' cs' changed' :
  marks_added (Node id cs changed) (Node id' cs' changed') =
  bool_decide (id = id') && implb changed changed' && all_marks_added cs cs'.
Proof. reflexivity. Qed.

Lemma mark_node_changes_id old n :
  node_id (mark_node_changes old n) = node_id n.
Proof.
  destruct n as [id cs changed]. destruct old as [old|]; [|done].
  rewrite mark_node_changes_Some. by case_decide.
Qed.

Lemma visit_children_ids old_children cs :
  node_id <$> visit_children old_children cs = node_id <$> cs.
Proof.
  induction cs as [|c rest IH]; [done|].
  change (visit_children old_children (c :: rest))
    with ((if shadowed (node_id c) rest then c
           else mark_node_changes (child_by_id (node_id c) old_children) c)
          :: visit_children old_children rest).
  rewrite !fmap_cons, IH. f_equal.
  destruct (shadowed _ _); [done|apply mark_node_changes_id].
Qed.

Lemma shadowed_visit id old_children cs :
  shadowed id (visit_children old_children cs) = shadowed id cs.
Proof. unfold shadowed. by rewrite visit_children_ids. Qed.

Lemma marks_added_refl n : marks_added n n = true.
Proof.
  induction n as [id cs changed IH] using node_children_ind.
  rewrite marks_added_eq, bool_decide_eq_true_2 by done.
  destruct changed; simpl; induction IH as [|c rest Hc _ IHrest]; simpl;
    try done; by rewrite Hc, IHrest.
Qed.

(** X14.  [mark_node_changes] only adds marks: whatever the old tree, the
    new tree keeps its ids and its shape, child by child, and no mark that
    it carried is taken away. *)
Theorem mark_node_changes_only_adds_marks old n :
  marks_added n (mark_node_changes old n) = true.
Proof.
  revert old. induction n as [id cs changed IH] using node_children_ind.
  intros old.
  assert (marks_added (Node id cs changed) (Node id cs true) = true) as Htop.
  { pose proof (marks_added_refl (Node id cs changed)) as Hr.
    rewrite marks_added_eq in Hr |- *.
    apply andb_true_iff in Hr as [_ ->].
    rewrite bool_decide_eq_true_2 by done. by destruct changed. }
  destruct old as [old|]; [|done].
  rewrite mark_node_changes_Some. case_decide; [|done].
  rewrite marks_added_eq, bool_decide_eq_true_2 by done.
  assert (implb changed
            (changed || existsb node_changed
               (dict_values (visit_children (node_children old) cs))) = true) as ->
    by by destruct changed.
  simpl. clear Htop. induction IH as [|c rest Hc _ IHrest]; simpl; [done|].
  rewrite IHrest, andb_true_r.
  destruct (shadowed _ _); [apply marks_added_refl|apply Hc].
Qed.

Lemma child_by_id_None id cs :
  id ∉ node_id <$> cs → child_by_id id cs = None.
Proof.
  induction cs as [|c rest IH]; [done|]. rewrite fmap_cons, not_elem_of_cons.
  intros [Hne Hrest]. simpl. rewrite (IH Hrest). by rewrite decide_False.
Qed.

Lemma child_by_id_last before c after :
  node_id c ∉ node_id <$> after →
  child_by_id (node_id c) (before ++ c :: after) = Some c.
Proof.
  intros Hlast. induction before as [|x before IH]; simpl.
  - rewrite (child_by_id_None _ _ Hlast). by rewrite decide_True.
  - by rewrite IH.
Qed.

Lemma unmarked_changed n : unmarked n = true → node_changed n = false.
Proof. destruct n as [id cs []]; simpl; [done|done]. Qed.

Lemma dict_values_unmarked cs :
  forallb unmarked cs = true → existsb node_changed (dict_values cs) = false.
Proof.
  induction cs as [|c rest IH]; [done|]. simpl.
  intros [Hc Hrest]%andb_true_iff. destruct (shadowed _ _); [auto|].
  simpl. by rewrite (unmarked_changed _ Hc), IH.
Qed.

(** X15.  Marking a tree without marks against itself leaves it as it is:
    nothing is reported between two equal trees, also when several
    children of a node have the same id. *)
Theorem mark_node_changes_against_itself n :
  unmarked n = true → mark_node_changes (Some n) n = n.
Proof.
  induction n as [id cs changed IH] using node_children_ind.
  simpl unmarked. intros [Hflag Hcs]%andb_true_iff.
  destruct changed; [done|].
  rewrite mark_node_changes_Some. simpl node_id. simpl node_children.
  rewrite decide_True by done.
  assert (∀ before rest, cs = before ++ rest →
            visit_children cs rest = rest) as Hvisit.
  { intros before rest. revert before.
    induction rest as [|c rest IHrest]; intros before Hsplit; [done|].
    simpl. rewrite (IHrest (before ++ [c])) by (by rewrite <- app_assoc).
    f_equal. destruct (shadowed (node_id c) rest) eqn:Hsh; [done|].
    rewrite Hsplit, child_by_id_last.
    - rewrite Forall_forall in IH. apply IH.
      + rewrite Hsplit. apply elem_of_app. right. left.
      + rewrite forallb_forall in Hcs. apply Hcs. apply list_elem_of_In.
        rewrite Hsplit. apply elem_of_app. right. left.
    - unfold shadowed in Hsh. by apply bool_decide_eq_false in Hsh. }
  rewrite (Hvisit [] cs eq_refl). by rewrite dict_values_unmarked.
Qed.

Lemma mark_node_changes_against_itself_witness :
  mark_node_changes (Some new_tree) new_tree = new_tree.
Proof. apply mark_node_changes_against_itself. reflexivity. Defined.

(** X16.  On a new tree without marks the mark of the root tells whether
    the tree was found in the old one: the root is left without mark
    exactly when the ids of the roots agree and every child that the dict
    of children keeps is found, in the same way, in the last child of the
    old node with its id.  Without old node the root is marked.  Children
    that only the old node has play no part. *)
Theorem root_is_marked_unless_found_in_old n :
  unmarked n = true →
  node_changed (mark_node_changes None n) = true ∧
  ∀ old, node_changed (mark_node_changes (Some old) n) = negb (found_in old n).
Proof.
  intros Hn. split; [by destruct n|]. revert Hn.
  induction n as [id cs changed IH] using node_children_ind.
  simpl unmarked. intros [Hflag Hcs]%andb_true_iff old.
  destruct changed; [done|].
  rewrite mark_node_changes_Some, found_in_eq. case_decide as Hid.
  2: { by rewrite bool_decide_eq_false_2. }
  rewrite bool_decide_eq_true_2 by done. simpl.
  generalize (node_children old) as ocs. intros ocs.
  induction IH as [|c rest Hc _ IHrest]; [done|].
  simpl in Hcs. apply andb_true_iff in Hcs as [Hcu Hrestu].
  simpl. rewrite shadowed_visit.
  assert (node_id (if shadowed (node_id c) rest then c
                   else mark_node_changes (child_by_id (node_id c) ocs) c)
          = node_id c) as ->.
  { destruct (shadowed _ _); [done|apply mark_node_changes_id]. }
  destruct (shadowed (node_id c) rest) eqn:Hsh; simpl.
  - by apply IHrest.
  - rewrite (IHrest Hrestu), negb_andb. f_equal.
    destruct (child_by_id (node_id c) ocs) as [o|]; [by apply Hc|].
    by destruct c.
Qed.

Lemma root_is_marked_unless_found_in_old_witness :
  node_changed (mark_node_changes (Some old_tree) new_tree) = true ∧
  found_in old_tree new_tree = false.
Proof.
  assert (unmarked new_tree = true) as Hu by reflexivity.
  destruct (root_is_marked_unless_found_in_old new_tree Hu) as [_ H].
  split; [|reflexivity]. rewrite H. reflexivity.
Defined.

(** [test_mark_new_tree_elements]: the changed leaf, the changed grandchild
    with its parent, and the added leaf are marked, and so is the root. *)
Example mark_new_tree_elements :
  mark_node_changes (Some old_tree) new_tree =
  Node "name" [leaf "a: 0"; Node "b: 1" [] true;
               Node "c: c" [Node "d: e" [] true] true;
               Node "f: f" [] true] true.
Proof. reflexivity. Qed.

(** A child that was removed leaves no mark. *)
Example removed_child_is_not_marked :
  mark_node_changes (Some old_tree) (Node "name" [leaf "a: 0"] false) =
  Node "name" [leaf "a: 0"] false.
Proof. reflexivity. Qed.
